(** * OneLang C++ standard library glue ([langs/StdLibs/one.hpp])

    A shallow embedding of the three helper classes of [one.hpp]:
    [OneMapHelper] ([keys], [values]), [OneStringHelper] ([split]) and
    [OneFile] ([readText]), together with the properties of them that the
    specification states.

    Conventions.
    - A [std::string] is a [String.string]: a finite sequence of 8-bit
      characters ([Ascii.ascii]), compared character by character.
    - Positions and lengths have the C++ type [size_t].  They are modelled
      in [nat]: a position handled by [split] never exceeds
      [str.length() + delim.length()] (lemma [split_step_bounds]), and both
      lengths are bounded by [max_size()], so the unsigned arithmetic of the
      source never wraps; [pos - prev] is only evaluated with [prev <= pos]
      (same lemma).  The sentinel [string::npos] is [None].
    - A call either returns, or leaves by a C++ exception, or runs for
      ever: type [outcome].  Loops whose number of iterations is not
      bounded by the shape of their input take a [fuel] argument. *)

From Stdlib Require Import Lists.List Arith.PeanoNat Bool.Bool micromega.Lia.
From Stdlib Require Import Sorting.Sorted.
From Stdlib Require Import Strings.Ascii Strings.String.
Import ListNotations.

Local Open Scope list_scope.
Local Open Scope string_scope.

(** ** Outcomes of a call *)

Inductive exception : Type :=
| out_of_range.                   (* std::out_of_range *)

Inductive outcome (A : Type) : Type :=
| Returned (a : A)                (* the call returns [a] *)
| Thrown (e : exception)          (* the call is left by exception [e] *)
| OutOfFuel.                      (* the call has not returned yet *)

Arguments Returned {A} a.
Arguments Thrown {A} e.
Arguments OutOfFuel {A}.

Definition outcome_map {A B : Type} (f : A -> B) (o : outcome A) : outcome B :=
  match o with
  | Returned a => Returned (f a)
  | Thrown e => Thrown e
  | OutOfFuel => OutOfFuel
  end.

(** ** The [std::string] members used by [one.hpp] *)

Module StdString.

(** [str.find(delim, prev)]: the position of the first occurrence of
    [delim] in [str] that starts at or after [prev]; [None] is
    [string::npos].  An empty [delim] is found at [prev] exactly when
    [prev <= str.length()]. *)
Definition find (str delim : string) (prev : nat) : option nat :=
  index prev delim str.

(** [str.substr(pos, count)]: the characters [[pos, min(pos+count, size))];
    throws [std::out_of_range] when [pos > size]. *)
Definition substr (str : string) (pos count : nat) : outcome string :=
  if (pos <=? length str)%nat then Returned (substring pos count str)
  else Thrown out_of_range.

(** [delim] occurs in [s] at offset [j]. *)
Definition occurs_at (delim s : string) (j : nat) : Prop :=
  substring j (length delim) s = delim.

(** [s.find(delim) != npos], the test for [delim] being a substring. *)
Definition contains (s delim : string) : bool :=
  match find s delim 0 with
  | Some _ => true
  | None => false
  end.

End StdString.

(** ** [OneStringHelper] *)

Module OneStringHelper.
Import StdString.

(** The value of [pos] after
    [pos = str.find(delim, prev); if (pos == npos) pos = str.length();]. *)
Definition next_pos (str delim : string) (prev : nat) : nat :=
  match find str delim prev with
  | Some pos => pos
  | None => length str
  end.

(** The [do { ... } while (pos < str.length() && prev < str.length())]
    loop of [split]: [prev] and [tokens] are the loop's variables at the
    top of the body, [fuel] bounds the number of iterations. *)
Fixpoint split_loop (fuel : nat) (str delim : string)
         (prev : nat) (tokens : list string) : outcome (list string) :=
  match fuel with
  | O => OutOfFuel
  | S fuel' =>
      let pos := next_pos str delim prev in
      match substr str prev (pos - prev) with
      | Returned token =>
          let tokens' := (tokens ++ [token])%list in        (* push_back *)
          let prev' := pos + length delim in
          if ((pos <? length str) && (prev' <? length str))%nat
          then split_loop fuel' str delim prev' tokens'
          else Returned tokens'
      | Thrown e => Thrown e
      | OutOfFuel => OutOfFuel
      end
  end.

(** [split(str, delim)] run for at most [fuel] iterations of its loop. *)
Definition split_fuel (fuel : nat) (str delim : string)
  : outcome (list string) :=
  split_loop fuel str delim 0 [].

(** [split(str, delim)].  [S (length str)] iterations are enough whenever
    the loop terminates at all (theorem [split_adequate]), so that
    [OutOfFuel] here means that the call runs for ever. *)
Definition split (str delim : string) : outcome (list string) :=
  split_fuel (S (length str)) str delim.

End OneStringHelper.

(** A canonical way to write a string: the pieces [ts], each followed by
    one copy of [delim].  [segments delim [t1; ...; tk]] is
    [t1 ++ delim ++ ... ++ tk ++ delim]. *)
Fixpoint segments (delim : string) (ts : list string) : string :=
  match ts with
  | [] => ""
  | t :: ts' => t ++ delim ++ segments delim ts'
  end.

(** A piece [t] is closed by the copy of [delim] written after it, and not
    by an earlier occurrence that overlaps that copy: scanning [t ++ delim]
    from its start finds [delim] first at offset [length t]. *)
Definition closed_by (delim t : string) : Prop :=
  StdString.find (t ++ delim) delim 0 = Some (length t).

(** What the scan emits for the characters [t] left after the last matched
    delimiter, when at least one delimiter was matched. *)
Definition remainder (t : string) : list string :=
  match t with
  | "" => []
  | _ => [t]
  end.

(** The tokens after the pieces [ts]: the rest [t] of the string, unless
    it is empty and a delimiter was matched. *)
Definition last_tokens (ts : list string) (t : string) : list string :=
  match ts with
  | [] => [t]
  | _ => remainder t
  end.

(** ** [std::map] *)

Module StdMap.

(** What [std::map] requires of its comparison object, as far as the
    properties below need it: a strict order. *)
Class StrictOrderB {K : Type} (comp : K -> K -> bool) : Prop := {
  comp_irrefl : forall a, comp a a = false;
  comp_trans : forall a b c,
    comp a b = true -> comp b c = true -> comp a c = true
}.

Section Ordered.
Context {K V : Type}.
(** The map's comparison object ([std::less<K>] by default). *)
Variable comp : K -> K -> bool.

Definition key_lt (a b : K) : Prop := comp a b = true.

(** The entries of a map are kept in strictly increasing key order. *)
Definition ordered (l : list (K * V)) : Prop :=
  StronglySorted key_lt (List.map fst l).

Record std_map : Type := {
  entries : list (K * V);         (* in iteration order *)
  entries_ordered : ordered entries
}.

Definition size (m : std_map) : nat := List.length (entries m).

(** A (forward) iterator is modelled by the entries from its position to
    the end of the map: [map.end()] is [[]], [++it] drops the head and
    [*it] is the head. *)
Definition iterator : Type := list (K * V).
Definition begin (m : std_map) : iterator := entries m.

Definition empty : std_map :=
  {| entries := []; entries_ordered := SSorted_nil key_lt |}.

(** Where [m.insert({k, v})] puts the entry; nothing changes when a key
    equivalent to [k] is present. *)
Fixpoint insert_entry (k : K) (v : V) (l : list (K * V)) : list (K * V) :=
  match l with
  | [] => [(k, v)]
  | (k', v') :: l' =>
      if comp k k' then (k, v) :: l
      else if comp k' k then (k', v') :: insert_entry k v l'
      else l
  end.

Context {comp_order : StrictOrderB comp}.

Lemma insert_entry_above (k0 k : K) (v : V) (l : list (K * V)) :
  key_lt k0 k -> Forall (key_lt k0) (List.map fst l) ->
  Forall (key_lt k0) (List.map fst (insert_entry k v l)).
Proof.
  intros Hk. induction l as [|[k' v'] l IH]; intros Hl; simpl.
  - constructor; [exact Hk | constructor].
  - destruct (comp k k'); [constructor; assumption|].
    destruct (comp k' k); [|exact Hl].
    inversion Hl; subst. constructor; [assumption | now apply IH].
Qed.

Lemma insert_entry_ordered (k : K) (v : V) (l : list (K * V)) :
  ordered l -> ordered (insert_entry k v l).
Proof.
  unfold ordered. induction l as [|[k' v'] l IH]; intros Hl; simpl.
  - constructor; constructor.
  - inversion Hl as [|? ? Hs Hf]; subst.
    destruct (comp k k') eqn:E1.
    + constructor; [exact Hl|]. constructor; [exact E1|].
      eapply Forall_impl; [|exact Hf].
      intros a Ha. exact (comp_trans _ _ _ E1 Ha).
    + destruct (comp k' k) eqn:E2; [|exact Hl].
      simpl. constructor; [now apply IH|].
      now apply insert_entry_above.
Qed.

(** [m.insert({k, v})]. *)
Definition insert (k : K) (v : V) (m : std_map) : std_map :=
  {| entries := insert_entry k v (entries m);
     entries_ordered := insert_entry_ordered k v _ (entries_ordered m) |}.

(** The map built from an initializer list, [map<K,V>{e1, ..., en}]. *)
Definition of_list (l : list (K * V)) : std_map :=
  fold_left (fun m e => insert (fst e) (snd e) m) l empty.
End Ordered.

Arguments std_map K V comp : clear implicits.
Arguments iterator K V : clear implicits.

(** [std::less<unsigned>] is such an order. *)
#[export] Instance nat_ltb_order : StrictOrderB Nat.ltb.
Proof.
  split.
  - intros a. apply Nat.ltb_irrefl.
  - intros a b c H1 H2. apply Nat.ltb_lt in H1, H2. apply Nat.ltb_lt. lia.
Qed.
End StdMap.

(** ** [OneMapHelper] *)

Module OneMapHelper.
Import StdMap.
Section Helpers.
Context {K V : Type} {comp : K -> K -> bool}.

(** [for (auto it = map.begin(); it != map.end(); ++it)
       result.push_back(it->first);] *)
Fixpoint keys_loop (it : iterator K V) (result : list K) : list K :=
  match it with
  | [] => result
  | e :: it' => keys_loop it' (result ++ [fst e])%list
  end.

Definition keys (map : std_map K V comp) : list K :=
  keys_loop (begin comp map) [].

(** [for (auto it = map.begin(); it != map.end(); ++it)
       result.push_back(it->second);] *)
Fixpoint values_loop (it : iterator K V) (result : list V) : list V :=
  match it with
  | [] => result
  | e :: it' => values_loop it' (result ++ [snd e])%list
  end.

Definition values (map : std_map K V comp) : list V :=
  values_loop (begin comp map) [].
End Helpers.
End OneMapHelper.

(** ** [OneFile] *)

Module OneFile.

(** The file system as [readText] sees it: the contents of the file at a
    path, or [None] when the file cannot be opened for reading (it does
    not exist, permission is denied, the path is invalid).  Streams are
    those of a POSIX system, where a stream opened without [ios::binary]
    delivers the file's bytes as they are. *)
Definition filesystem : Type := string -> option string.

(** [ifstream file(path)]: the constructor never throws; a failed open
    leaves the stream closed (with [failbit] set) and its buffer without
    characters. *)
Record ifstream : Type := {
  is_open : bool;
  fail : bool;
  pending : string                  (* characters not read yet *)
}.

Definition ifstream_open (fs : filesystem) (path : string) : ifstream :=
  match fs path with
  | Some contents => {| is_open := true; fail := false; pending := contents |}
  | None => {| is_open := false; fail := true; pending := "" |}
  end.

(** [string content(istreambuf_iterator<char>(file),
                    istreambuf_iterator<char>())]: characters are appended
    one by one until the iterator reaches end-of-stream, which is at once
    on a closed stream. *)
Fixpoint read_all (pending content : string) : string :=
  match pending with
  | "" => content
  | String c rest => read_all rest (content ++ String c "")
  end.

Definition readText (fs : filesystem) (path : string) : outcome string :=
  let file := ifstream_open fs path in
  let content := read_all (pending file) "" in
  Returned content.

End OneFile.

(** ** Sample inputs *)

Module Samples.
Import StdMap OneFile.

(** [map<unsigned, string>{{3, "c"}, {1, "a"}, {2, "b"}}] *)
Definition numbered : std_map nat string Nat.ltb :=
  of_list Nat.ltb [(3, "c"); (1, "a"); (2, "b")].

(** A file system with a two-line file and an empty file, and nothing
    else. *)
Definition disk : filesystem :=
  fun path =>
    if (path =? "hello.txt")%string
    then Some ("hello" ++ String "010" "world")
    else if (path =? "empty.txt")%string then Some ""
    else None.

End Samples.

(** * Properties *)

(** ** Facts about [String.string] *)

Module StringFacts.

Lemma length_append (a b : string) :
  length (a ++ b) = length a + length b.
Proof. induction a as [|c a IH]; simpl; [reflexivity | now rewrite IH]. Qed.

Lemma append_empty_r (a : string) : a ++ "" = a.
Proof. induction a as [|c a IH]; simpl; [reflexivity | now rewrite IH]. Qed.

Lemma append_assoc (a b c : string) : (a ++ b) ++ c = a ++ (b ++ c).
Proof. induction a as [|x a IH]; simpl; [reflexivity | now rewrite IH]. Qed.

Lemma length_zero (s : string) : length s = 0 -> s = "".
Proof. destruct s; simpl; [reflexivity | discriminate]. Qed.

Lemma length_nonempty (s : string) : s <> "" -> 0 < length s.
Proof. destruct s; simpl; [congruence | lia]. Qed.

Lemma substring_length (s : string) (n m : nat) :
  length (substring n m s) = Nat.min m (length s - n).
Proof.
  revert n m; induction s as [|c s IH]; intros [|n] [|m]; simpl;
    try reflexivity; rewrite IH; simpl; lia.
Qed.

Lemma substring_all (s : string) : substring 0 (length s) s = s.
Proof. induction s as [|c s IH]; simpl; [reflexivity | now rewrite IH]. Qed.

Lemma substring_zero_count (s : string) (n : nat) : substring n 0 s = "".
Proof.
  revert n; induction s as [|c s IH]; intros [|n]; simpl; auto.
Qed.

(** Skipping a prefix. *)
Lemma substring_skip (a b : string) (n m : nat) :
  substring (length a + n) m (a ++ b) = substring n m b.
Proof. induction a as [|c a IH]; simpl; auto. Qed.

(** A range that lies inside [a] does not see what follows [a]. *)
Lemma substring_inside (a b : string) (n m : nat) :
  n + m <= length a -> substring n m (a ++ b) = substring n m a.
Proof.
  revert n m; induction a as [|c a IH]; intros n m H; simpl in *.
  - assert (n = 0) by lia. assert (m = 0) by lia. subst.
    destruct b; reflexivity.
  - destruct n as [|n].
    + destruct m as [|m]; [reflexivity|].
      f_equal. apply IH. lia.
    + apply IH. lia.
Qed.

Lemma substring_prefix (a b : string) :
  substring 0 (length a) (a ++ b) = a.
Proof.
  rewrite substring_inside by lia. apply substring_all.
Qed.

(** A range of a range is a range of the whole. *)
Lemma substring_substring (s : string) (n m j d : nat) :
  j + d <= m ->
  substring j d (substring n m s) = substring (n + j) d s.
Proof.
  revert n m j d; induction s as [|c s IH]; intros n m j d H.
  - destruct n, m, j, d; reflexivity.
  - destruct n as [|n]; simpl.
    + destruct m as [|m].
      * assert (j = 0) by lia. assert (d = 0) by lia. subst. reflexivity.
      * destruct j as [|j]; simpl.
        -- destruct d as [|d]; [reflexivity|].
           f_equal. rewrite (IH 0 m 0 d) by lia. reflexivity.
        -- rewrite (IH 0 m j d) by lia. reflexivity.
    + apply IH. exact H.
Qed.

(** A string is what precedes a position followed by what starts there. *)
Lemma substring_cut (s : string) (n : nat) :
  n <= length s ->
  s = substring 0 n s ++ substring n (length s - n) s.
Proof.
  revert n; induction s as [|c s IH]; intros n H; simpl in *.
  - assert (n = 0) by lia. subst. reflexivity.
  - destruct n as [|n]; simpl.
    + now rewrite substring_all.
    + f_equal. apply IH. lia.
Qed.

Lemma prefix_refl (a b : string) : prefix a (a ++ b) = true.
Proof.
  induction a as [|c a IH]; simpl.
  - destruct b; reflexivity.
  - destruct (ascii_dec c c); [exact IH | congruence].
Qed.

End StringFacts.

(** ** Facts about [find] and [substr] *)

Module FindFacts.
Import StdString StringFacts.

Lemma find_ge (str delim : string) (n m : nat) :
  find str delim n = Some m -> n <= m.
Proof.
  unfold find. revert n m.
  induction str as [|c str IH]; intros [|n] m; simpl; try lia.
  - discriminate.
  - destruct (index n delim str) as [k|] eqn:E; [|discriminate].
    intros [= <-]. apply IH in E. lia.
Qed.

Lemma find_le_length (str delim : string) (n m : nat) :
  find str delim n = Some m -> m <= length str.
Proof.
  unfold find. revert n m.
  induction str as [|c str IH]; intros [|n] m; cbn [index length].
  - destruct delim; [intros [= Hm]; lia | discriminate].
  - discriminate.
  - destruct (prefix delim (String c str)); [intros [= Hm]; lia|].
    destruct (index 0 delim str) as [k|] eqn:E; [|discriminate].
    intros [= <-]. apply IH in E. lia.
  - destruct (index n delim str) as [k|] eqn:E; [|discriminate].
    intros [= <-]. apply IH in E. lia.
Qed.

(** The empty string is found where the search starts. *)
Lemma find_empty (str : string) (n : nat) :
  n <= length str -> find str "" n = Some n.
Proof.
  unfold find. revert n. induction str as [|c str IH]; intros [|n] H;
    simpl in *; try reflexivity; try lia.
  rewrite IH by lia. reflexivity.
Qed.

Lemma find_past_end (str delim : string) (n : nat) :
  length str < n -> find str delim n = None.
Proof.
  unfold find. revert n. induction str as [|c str IH]; intros [|n] H;
    simpl in *; try reflexivity; try lia.
  rewrite IH by lia. reflexivity.
Qed.

Lemma find_occurs (str delim : string) (n m : nat) :
  find str delim n = Some m -> occurs_at delim str m.
Proof. apply index_correct1. Qed.

Lemma occurs_bound (delim s : string) (j : nat) :
  occurs_at delim s j -> delim <> "" -> j + length delim <= length s.
Proof.
  unfold occurs_at. intros H Hne.
  apply (f_equal length) in H. rewrite substring_length in H.
  apply length_nonempty in Hne. lia.
Qed.

(** A match ends inside the string. *)
Lemma find_bound (str delim : string) (n m : nat) :
  find str delim n = Some m -> m + length delim <= length str.
Proof.
  intros H. destruct delim as [|c d].
  - apply find_le_length in H. simpl. lia.
  - apply occurs_bound; [eapply find_occurs; eassumption | discriminate].
Qed.

(** [find] is determined by its specification: the first occurrence at
    or after the starting position. *)
Lemma find_first (str delim : string) (n m : nat) :
  delim <> "" -> n <= m -> occurs_at delim str m ->
  (forall p, n <= p -> p < m -> ~ occurs_at delim str p) ->
  find str delim n = Some m.
Proof.
  intros Hne Hnm Hocc Hfirst.
  destruct (find str delim n) as [k|] eqn:E.
  - f_equal.
    pose proof (find_ge _ _ _ _ E) as Hge.
    pose proof (find_occurs _ _ _ _ E) as Hk.
    destruct (Nat.lt_trichotomy k m) as [Hlt | [Heq | Hgt]].
    + exfalso. exact (Hfirst k Hge Hlt Hk).
    + exact Heq.
    + exfalso. exact (index_correct2 _ _ _ _ E m Hnm Hgt Hocc).
  - exfalso. exact (index_correct3 _ m _ _ E Hne Hnm Hocc).
Qed.

Lemma find_skip (a b delim : string) (n : nat) :
  find (a ++ b) delim (length a + n) =
  option_map (Nat.add (length a)) (find b delim n).
Proof.
  unfold find. induction a as [|c a IH]; simpl.
  - destruct (index n delim b); reflexivity.
  - rewrite IH. destruct (index n delim b); reflexivity.
Qed.

Lemma occurs_skip (a b delim : string) (j : nat) :
  occurs_at delim (a ++ b) (length a + j) <-> occurs_at delim b j.
Proof. unfold occurs_at. rewrite substring_skip. tauto. Qed.

Lemma contains_false_iff (s delim : string) :
  delim <> "" ->
  contains s delim = false <-> forall j, ~ occurs_at delim s j.
Proof.
  intros Hne. unfold contains. split.
  - destruct (find s delim 0) eqn:E; [discriminate|].
    intros _ j. apply (index_correct3 0 j _ _ E Hne). lia.
  - intros H. destruct (find s delim 0) as [k|] eqn:E; [|reflexivity].
    exfalso. exact (H k (find_occurs _ _ _ _ E)).
Qed.

Lemma contains_true_iff (s delim : string) :
  delim <> "" ->
  contains s delim = true <-> exists j, occurs_at delim s j.
Proof.
  intros Hne. unfold contains. split.
  - destruct (find s delim 0) as [k|] eqn:E; [|discriminate].
    intros _. exists k. exact (find_occurs _ _ _ _ E).
  - intros [j Hj]. destruct (find s delim 0) eqn:E; [reflexivity|].
    exfalso. apply (index_correct3 0 j _ _ E Hne); [lia | exact Hj].
Qed.

Lemma substr_returns (str : string) (pos count : nat) :
  pos <= length str ->
  substr str pos count = Returned (substring pos count str).
Proof.
  intros H. unfold substr.
  destruct (Nat.leb_spec pos (length str)); [reflexivity | lia].
Qed.

Lemma substr_skip (a b : string) (pos count : nat) :
  substr (a ++ b) (length a + pos) count = substr b pos count.
Proof.
  unfold substr. rewrite length_append, substring_skip.
  destruct (Nat.leb_spec (length a + pos) (length a + length b));
    destruct (Nat.leb_spec pos (length b)); try reflexivity; lia.
Qed.

End FindFacts.

(** ** The loop of [split] *)

Module SplitFacts.
Import StdString OneStringHelper StringFacts FindFacts.

(** The positions computed by one iteration stay within
    [length str + length delim], and [pos - prev] is a true difference. *)
Lemma split_step_bounds (str delim : string) (prev : nat) :
  prev <= length str ->
  prev <= next_pos str delim prev /\
  next_pos str delim prev <= length str /\
  next_pos str delim prev + length delim <= length str + length delim.
Proof.
  intros H. unfold next_pos.
  destruct (find str delim prev) as [pos|] eqn:E.
  - pose proof (find_ge _ _ _ _ E). pose proof (find_le_length _ _ _ _ E). lia.
  - lia.
Qed.

Lemma next_pos_skip (a b delim : string) (prev : nat) :
  next_pos (a ++ b) delim (length a + prev) =
  length a + next_pos b delim prev.
Proof.
  unfold next_pos. rewrite find_skip.
  destruct (find b delim prev); simpl; [reflexivity | apply length_append].
Qed.

(** One iteration, when [substr] is called within range. *)
Lemma split_loop_step (fuel : nat) (str delim : string) (prev : nat)
      (tokens : list string) :
  prev <= length str ->
  split_loop (S fuel) str delim prev tokens =
  let pos := next_pos str delim prev in
  let tokens' := (tokens ++ [substring prev (pos - prev) str])%list in
  if ((pos <? length str) && (pos + length delim <? length str))%nat
  then split_loop fuel str delim (pos + length delim) tokens'
  else Returned tokens'.
Proof.
  intros H. cbn [split_loop]. rewrite substr_returns by exact H. reflexivity.
Qed.

(** The loop never calls [substr] out of range. *)
Lemma split_loop_no_throw (fuel : nat) (str delim : string) (prev : nat)
      (tokens : list string) (e : exception) :
  prev <= length str ->
  split_loop fuel str delim prev tokens <> Thrown e.
Proof.
  revert prev tokens. induction fuel as [|fuel IH]; intros prev tokens H.
  - discriminate.
  - rewrite split_loop_step by exact H. cbv zeta.
    destruct (_ && _)%bool eqn:C; [|discriminate].
    apply IH. apply andb_prop in C. destruct C as [_ C].
    apply Nat.ltb_lt in C. lia.
Qed.

(** Tokens already pushed are left alone. *)
Lemma split_loop_acc (fuel : nat) (str delim : string) (prev : nat)
      (tokens : list string) :
  split_loop fuel str delim prev tokens =
  outcome_map (app tokens) (split_loop fuel str delim prev []).
Proof.
  revert prev tokens. induction fuel as [|fuel IH]; intros prev tokens.
  - reflexivity.
  - cbn [split_loop]. destruct (substr str prev _) as [token| |]; try reflexivity.
    cbv zeta. destruct (_ && _)%bool; [|reflexivity].
    rewrite IH. rewrite (IH _ ([] ++ [token])%list).
    destruct (split_loop fuel str delim _ []) as [r| |]; simpl; try reflexivity.
    now rewrite <- app_assoc.
Qed.

(** More fuel does not change a result. *)
Lemma split_loop_fuel_mono (fuel fuel' : nat) (str delim : string)
      (prev : nat) (tokens r : list string) :
  split_loop fuel str delim prev tokens = Returned r -> fuel <= fuel' ->
  split_loop fuel' str delim prev tokens = Returned r.
Proof.
  revert fuel' prev tokens.
  induction fuel as [|fuel IH]; intros fuel' prev tokens H Hle.
  - discriminate.
  - destruct fuel' as [|fuel']; [lia|].
    cbn [split_loop] in *.
    destruct (substr str prev _) as [token| |]; try discriminate.
    cbv zeta in *. destruct (_ && _)%bool; [|exact H].
    apply IH; [exact H | lia].
Qed.

(** With a non-empty delimiter [prev] grows at each iteration, so the loop
    ends within [length str - prev + 1] iterations. *)
Lemma split_loop_terminates (fuel : nat) (str delim : string) (prev : nat)
      (tokens : list string) :
  delim <> "" -> prev <= length str -> length str - prev < fuel ->
  exists r, split_loop fuel str delim prev tokens = Returned r.
Proof.
  intros Hne. apply length_nonempty in Hne.
  revert prev tokens. induction fuel as [|fuel IH]; intros prev tokens H Hf.
  - lia.
  - rewrite split_loop_step by exact H. cbv zeta.
    destruct (split_step_bounds str delim prev H) as (Hge & Hle & _).
    destruct (_ && _)%bool eqn:C; [|eauto].
    apply andb_prop in C. destruct C as [C1 C2].
    apply Nat.ltb_lt in C1, C2. apply IH; lia.
Qed.

(** With the empty delimiter and a non-empty [str] every iteration finds
    the empty match at [prev = 0] and leaves [prev] where it is. *)
Lemma split_loop_empty_delim (fuel : nat) (str : string)
      (tokens : list string) :
  str <> "" -> split_loop fuel str "" 0 tokens = OutOfFuel.
Proof.
  intros Hne. revert tokens. induction fuel as [|fuel IH]; intros tokens.
  - reflexivity.
  - rewrite split_loop_step by lia. cbv zeta.
    assert (Hp : next_pos str "" 0 = 0).
    { unfold next_pos, find. destruct str; [congruence | reflexivity]. }
    rewrite Hp. cbn [length Nat.add].
    apply length_nonempty in Hne.
    destruct (Nat.ltb_spec 0 (length str)); [|lia].
    cbn [andb]. apply IH.
Qed.

Lemma split_loop_skip (fuel : nat) (a b delim : string) (prev : nat)
      (tokens : list string) :
  split_loop fuel (a ++ b) delim (length a + prev) tokens =
  split_loop fuel b delim prev tokens.
Proof.
  revert prev tokens. induction fuel as [|fuel IH]; intros prev tokens.
  - reflexivity.
  - cbn [split_loop]. rewrite next_pos_skip.
    replace (length a + next_pos b delim prev - (length a + prev))
      with (next_pos b delim prev - prev) by lia.
    rewrite substr_skip.
    destruct (substr b prev _) as [token| |]; try reflexivity.
    cbv zeta. rewrite length_append.
    replace (length a + next_pos b delim prev <? length a + length b)%nat
      with (next_pos b delim prev <? length b)%nat
      by (destruct (Nat.ltb_spec (next_pos b delim prev) (length b));
          symmetry; [apply Nat.ltb_lt | apply Nat.ltb_ge]; lia).
    replace (length a + next_pos b delim prev + length delim
             <? length a + length b)%nat
      with (next_pos b delim prev + length delim <? length b)%nat
      by (destruct (Nat.ltb_spec (next_pos b delim prev + length delim)
                                 (length b));
          symmetry; [apply Nat.ltb_lt | apply Nat.ltb_ge]; lia).
    rewrite <- Nat.add_assoc. rewrite IH. reflexivity.
Qed.

End SplitFacts.

(** ** Termination of [split] and adequacy of its fuel *)

Module SplitTermination.
Import StdString OneStringHelper StringFacts FindFacts SplitFacts.

Lemma split_total (str delim : string) :
  delim <> "" \/ str = "" -> exists r, split str delim = Returned r.
Proof.
  intros [Hne | ->].
  - apply split_loop_terminates; [exact Hne | lia | lia].
  - exists [""]. destruct delim; reflexivity.
Qed.

(** [split] diverges exactly on an empty delimiter with a non-empty
    string. *)
Lemma split_diverges (str : string) (fuel : nat) :
  str <> "" -> split_fuel fuel str "" = OutOfFuel.
Proof. apply split_loop_empty_delim. Qed.

(** A result obtained with some fuel is the result of [split]. *)
Lemma split_adequate (str delim : string) (r : list string) :
  (exists fuel, split_fuel fuel str delim = Returned r) <->
  split str delim = Returned r.
Proof.
  split; [|intros H; eexists; exact H].
  intros [fuel H].
  assert (Ht : delim <> "" \/ str = "").
  { destruct delim as [|c d]; [|left; discriminate].
    destruct str as [|c s]; [right; reflexivity|].
    rewrite split_diverges in H; discriminate. }
  destruct (split_total str delim Ht) as [r' Hr'].
  rewrite Hr'. f_equal.
  pose proof (split_loop_fuel_mono _ (Nat.max fuel (S (length str)))
                _ _ _ _ _ H (Nat.le_max_l _ _)) as H1.
  pose proof (split_loop_fuel_mono _ (Nat.max fuel (S (length str)))
                _ _ _ _ _ Hr' (Nat.le_max_r _ _)) as H2.
  congruence.
Qed.

(** [OutOfFuel] from [split] is divergence, not a lack of fuel. *)
Lemma split_out_of_fuel (str delim : string) :
  split str delim = OutOfFuel ->
  forall fuel, split_fuel fuel str delim = OutOfFuel.
Proof.
  intros H fuel.
  destruct delim as [|c d].
  - destruct str as [|c s]; [discriminate H|].
    apply split_diverges. discriminate.
  - destruct (split_total str (String c d)) as [r Hr];
      [left; discriminate | congruence].
Qed.

Lemma split_no_throw (fuel : nat) (str delim : string) (e : exception) :
  split_fuel fuel str delim <> Thrown e.
Proof. apply split_loop_no_throw. lia. Qed.

End SplitTermination.

(** ** What [split] returns *)

Module SplitResult.
Import StdString OneStringHelper StringFacts FindFacts SplitFacts.
Import SplitTermination.

Lemma segments_app (delim : string) (xs ys : list string) :
  segments delim (xs ++ ys) = segments delim xs ++ segments delim ys.
Proof.
  induction xs as [|x xs IH]; simpl; [reflexivity|].
  now rewrite IH, !append_assoc.
Qed.

Lemma segments_empty (delim : string) (ts : list string) :
  delim <> "" -> segments delim ts = "" -> ts = [].
Proof.
  intros Hne H. destruct ts as [|t ts]; [reflexivity|].
  apply (f_equal length) in H. simpl in H.
  rewrite !length_append in H. apply length_nonempty in Hne. lia.
Qed.

Lemma closed_by_empty (delim : string) : delim <> "" -> closed_by delim "".
Proof.
  intros Hne. unfold closed_by, find. destruct delim as [|c d]; [congruence|].
  cbn [append index length].
  pose proof (prefix_refl (String c d) "") as H.
  rewrite append_empty_r in H. now rewrite H.
Qed.

(** A piece closed by its delimiter is found so whatever follows. *)
Lemma find_closed (t delim rest : string) :
  delim <> "" -> closed_by delim t ->
  find (t ++ delim ++ rest) delim 0 = Some (length t).
Proof.
  intros Hne Hc. apply find_first; [exact Hne | lia | |].
  - rewrite <- (Nat.add_0_r (length t)). apply occurs_skip.
    unfold occurs_at. apply substring_prefix.
  - intros p _ Hp Hocc. unfold occurs_at in Hocc.
    rewrite <- append_assoc in Hocc.
    rewrite substring_inside in Hocc by (rewrite length_append; lia).
    exact (index_correct2 _ _ _ _ Hc p (Nat.le_0_l p) Hp Hocc).
Qed.

Lemma contains_empty (delim : string) :
  delim <> "" -> contains "" delim = false.
Proof. destruct delim; [congruence | reflexivity]. Qed.

(** [split] undoes [segments]: each piece closed by a delimiter is one
    token, and so is what follows the last delimiter when it is not
    empty. *)
Lemma split_loop_segments (delim : string) (ts : list string) (t : string) :
  delim <> "" -> Forall (closed_by delim) ts -> contains t delim = false ->
  forall fuel, List.length ts < fuel ->
  split_loop fuel (segments delim ts ++ t) delim 0 [] =
  Returned (ts ++ last_tokens ts t)%list.
Proof.
  intros Hne Hts Ht. induction Hts as [|x ts Hx Hts IH]; intros fuel Hf.
  - destruct fuel as [|fuel]; [simpl in Hf; lia|].
    cbn [segments append List.app last_tokens].
    rewrite split_loop_step by lia. cbv zeta.
    assert (Hp : next_pos t delim 0 = length t).
    { unfold next_pos. unfold contains in Ht.
      destruct (find t delim 0); [discriminate | reflexivity]. }
    rewrite Hp, Nat.ltb_irrefl, Nat.sub_0_r, substring_all. reflexivity.
  - destruct fuel as [|fuel]; [simpl in Hf; lia|].
    cbn [segments]. rewrite !append_assoc.
    set (rest := segments delim ts ++ t).
    rewrite split_loop_step by lia. cbv zeta.
    assert (Hp : next_pos (x ++ delim ++ rest) delim 0 = length x).
    { unfold next_pos. now rewrite find_closed. }
    rewrite Hp, Nat.sub_0_r, substring_prefix.
    rewrite !length_append.
    pose proof (length_nonempty _ Hne) as Hd.
    destruct (Nat.ltb_spec (length x) (length x + (length delim + length rest)));
      [|lia].
    cbn [andb List.app].
    destruct (Nat.ltb_spec (length x + length delim)
                           (length x + (length delim + length rest)))
      as [Hr | Hr].
    + rewrite <- append_assoc, <- length_append.
      rewrite <- (Nat.add_0_r (length (x ++ delim))).
      rewrite split_loop_skip, split_loop_acc.
      unfold rest. rewrite IH by (simpl in Hf; lia).
      cbn [outcome_map List.app]. do 2 f_equal.
      destruct ts as [|y ts]; [|reflexivity].
      cbn [List.app last_tokens]. unfold rest in Hr. cbn [segments append] in Hr.
      destruct t; [simpl in Hr; lia | reflexivity].
    + assert (Hrest : rest = "") by (apply length_zero; lia).
      unfold rest in Hrest.
      assert (Hts' : ts = []).
      { apply (segments_empty delim); [exact Hne|].
        destruct (segments delim ts); [reflexivity | discriminate Hrest]. }
      subst ts. cbn [segments append] in Hrest. subst t. reflexivity.
Qed.

(** Every string is written in that way: the scan's matches cut it into
    pieces closed by a delimiter and a rest without delimiter. *)
Lemma segments_exist (delim : string) (Hne : delim <> "") (n : nat) :
  forall str, length str <= n ->
  exists ts t, str = segments delim ts ++ t /\
               Forall (closed_by delim) ts /\ contains t delim = false.
Proof.
  pose proof (length_nonempty _ Hne) as Hd.
  induction n as [|n IH]; intros str Hn.
  - exists [], str. assert (str = "") as -> by (apply length_zero; lia).
    repeat split; [constructor | now apply contains_empty].
  - destruct (find str delim 0) as [p|] eqn:E.
    + pose proof (find_bound _ _ _ _ E) as Hb.
      pose proof (find_occurs _ _ _ _ E) as Hocc.
      set (x := substring 0 p str).
      set (tail := substring p (length str - p) str).
      set (rest := substring (length delim) (length tail - length delim) tail).
      assert (Hx : length x = p)
        by (unfold x; rewrite substring_length; lia).
      assert (Htail : length tail = length str - p)
        by (unfold tail; rewrite substring_length; lia).
      assert (Hstr : str = x ++ delim ++ rest).
      { rewrite (substring_cut str p) at 1 by lia. fold x tail. f_equal.
        rewrite (substring_cut tail (length delim)) at 1 by lia.
        fold rest. f_equal. unfold tail.
        rewrite substring_substring by lia.
        rewrite Nat.add_0_r. exact Hocc. }
      assert (Hc : closed_by delim x).
      { apply find_first; [exact Hne | lia | |].
        - rewrite <- (Nat.add_0_r (length x)). apply occurs_skip.
          apply substring_all.
        - intros q _ Hq Hq'. unfold occurs_at in Hq'.
          apply (index_correct2 _ _ _ _ E q); [lia | lia |].
          rewrite Hstr, <- append_assoc.
          rewrite substring_inside by (rewrite length_append; lia).
          exact Hq'. }
      destruct (IH rest) as (ts & t & Hr & Hts & Ht).
      { unfold rest. rewrite substring_length. lia. }
      exists (x :: ts), t. split; [|split; [constructor; assumption | exact Ht]].
      cbn [segments]. rewrite !append_assoc, <- Hr. exact Hstr.
    + exists [], str. split; [reflexivity | split; [constructor|]].
      unfold contains. now rewrite E.
Qed.

Lemma split_segments (delim : string) (ts : list string) (t : string) :
  delim <> "" -> Forall (closed_by delim) ts -> contains t delim = false ->
  split (segments delim ts ++ t) delim =
  Returned (ts ++ last_tokens ts t)%list.
Proof.
  intros Hne Hts Ht. apply split_adequate.
  exists (S (List.length ts)). apply split_loop_segments; auto.
Qed.

(** So the result of [split] is described for every string. *)
Lemma split_canonical (str delim : string) :
  delim <> "" ->
  exists ts t, str = segments delim ts ++ t /\
               Forall (closed_by delim) ts /\ contains t delim = false /\
               split str delim = Returned (ts ++ last_tokens ts t)%list.
Proof.
  intros Hne.
  destruct (segments_exist delim Hne (length str) str (le_n _))
    as (ts & t & Hs & Hts & Ht).
  exists ts, t. split; [exact Hs | split; [exact Hts | split; [exact Ht|]]].
  rewrite Hs at 1. now apply split_segments.
Qed.

End SplitResult.

(** ** Invariants of the tokens *)

Module SplitTokens.
Import StdString OneStringHelper StringFacts FindFacts SplitFacts.

(** The token cut by one iteration ends before the first occurrence of the
    delimiter at or after [prev], so the delimiter does not occur in it. *)
Lemma token_delim_free (str delim : string) (prev : nat) :
  delim <> "" ->
  contains (substring prev (next_pos str delim prev - prev) str) delim
  = false.
Proof.
  intros Hne. apply contains_false_iff; [exact Hne|].
  intros j Hocc.
  pose proof (occurs_bound _ _ _ Hocc Hne) as Hb.
  rewrite substring_length in Hb.
  unfold occurs_at in Hocc.
  rewrite substring_substring in Hocc by lia.
  pose proof (length_nonempty _ Hne) as Hd.
  unfold next_pos in *.
  destruct (find str delim prev) as [pos|] eqn:E.
  - apply (index_correct2 _ _ _ _ E (prev + j)); [lia | lia | exact Hocc].
  - apply (index_correct3 _ (prev + j) _ _ E Hne); [lia | exact Hocc].
Qed.

Lemma split_loop_delim_free (fuel : nat) (str delim : string) (prev : nat)
      (tokens r : list string) :
  delim <> "" ->
  Forall (fun t => contains t delim = false) tokens ->
  split_loop fuel str delim prev tokens = Returned r ->
  Forall (fun t => contains t delim = false) r.
Proof.
  intros Hne. revert prev tokens.
  induction fuel as [|fuel IH]; intros prev tokens Htok H.
  - discriminate.
  - cbn [split_loop] in H. unfold substr in H.
    destruct (prev <=? length str)%nat; [|discriminate].
    cbv zeta in H.
    assert (Htok' : Forall (fun t => contains t delim = false)
              (tokens ++
               [substring prev (next_pos str delim prev - prev) str])%list).
    { apply Forall_app. split; [exact Htok|].
      constructor; [|constructor]. now apply token_delim_free. }
    destruct (_ && _)%bool.
    + exact (IH _ _ Htok' H).
    + injection H as <-. exact Htok'.
Qed.

(** Every iteration pushes a token. *)
Lemma split_loop_grows (fuel : nat) (str delim : string) (prev : nat)
      (tokens r : list string) :
  split_loop fuel str delim prev tokens = Returned r ->
  List.length tokens < List.length r.
Proof.
  revert prev tokens. induction fuel as [|fuel IH]; intros prev tokens H.
  - discriminate.
  - cbn [split_loop] in H.
    destruct (substr str prev _) as [token| |]; try discriminate.
    cbv zeta in H. destruct (_ && _)%bool.
    + apply IH in H. rewrite length_app in H. simpl in H. lia.
    + injection H as <-. rewrite length_app. simpl. lia.
Qed.

End SplitTokens.

(** ** [OneMapHelper]: the loops are projections of the entries *)

Module MapFacts.
Import StdMap OneMapHelper.

Section Loops.
Context {K V : Type} {comp : K -> K -> bool}.

Lemma keys_loop_spec (it : iterator K V) (result : list K) :
  keys_loop it result = (result ++ List.map fst it)%list.
Proof.
  revert result. induction it as [|e it IH]; intros result; simpl.
  - now rewrite app_nil_r.
  - rewrite IH, <- app_assoc. reflexivity.
Qed.

Lemma values_loop_spec (it : iterator K V) (result : list V) :
  values_loop it result = (result ++ List.map snd it)%list.
Proof.
  revert result. induction it as [|e it IH]; intros result; simpl.
  - now rewrite app_nil_r.
  - rewrite IH, <- app_assoc. reflexivity.
Qed.

Lemma keys_entries (m : std_map K V comp) :
  keys m = List.map fst (entries comp m).
Proof. unfold keys, begin. now rewrite keys_loop_spec. Qed.

Lemma values_entries (m : std_map K V comp) :
  values m = List.map snd (entries comp m).
Proof. unfold values, begin. now rewrite values_loop_spec. Qed.

Lemma sorted_NoDup `{!StrictOrderB comp} (l : list K) :
  StronglySorted (key_lt comp) l -> NoDup l.
Proof.
  induction 1 as [|a l Hs IH Hf]; constructor; [|exact IH].
  intros Hin. rewrite Forall_forall in Hf. specialize (Hf a Hin).
  unfold key_lt in Hf. rewrite comp_irrefl in Hf. discriminate.
Qed.
End Loops.

End MapFacts.

(** ** [OneFile]: reading to end-of-stream *)

Module FileFacts.
Import OneFile StringFacts.

Lemma read_all_spec (pending content : string) :
  read_all pending content = content ++ pending.
Proof.
  revert content. induction pending as [|c rest IH]; intros content; simpl.
  - now rewrite append_empty_r.
  - rewrite IH, append_assoc. reflexivity.
Qed.

End FileFacts.

(** ** The sample calls of the specification *)

Module SampleCalls.
Import OneStringHelper StdMap OneMapHelper.

Example split_three : split "a,b,c" "," = Returned ["a"; "b"; "c"].
Proof. reflexivity. Qed.

Example split_no_delimiter : split "abc" "," = Returned ["abc"].
Proof. reflexivity. Qed.

Example split_empty_string : split "" "," = Returned [""].
Proof. reflexivity. Qed.

Example split_leading_delimiter : split ",a" "," = Returned [""; "a"].
Proof. reflexivity. Qed.

Example split_overlapping : split "aaa" "aa" = Returned [""; "a"].
Proof. reflexivity. Qed.

Example keys_numbered : keys Samples.numbered = [1; 2; 3].
Proof. reflexivity. Qed.

Example values_numbered : values Samples.numbered = ["a"; "b"; "c"].
Proof. reflexivity. Qed.

Example keys_empty : keys (empty Nat.ltb (V := string)) = [].
Proof. reflexivity. Qed.

Example values_empty : values (empty Nat.ltb (V := string)) = [].
Proof. reflexivity. Qed.

End SampleCalls.

(** * The specification's statements *)

Import StdString OneStringHelper StdMap OneMapHelper OneFile.

(** ** StringSplitter *)

(** C1, as the specification states it, fails: on ["a,"] the scan matches
    the delimiter, sees that [prev] has reached [str.length()] and leaves
    the loop; no empty string is pushed after the match. *)
Lemma split_trailing_delimiter_no_empty :
  split "a," "," = Returned ["a"] /\ split "a," "," <> Returned ["a"; ""].
Proof. split; [reflexivity | discriminate]. Qed.

(** C1, amended: a string that ends with a delimiter matched by the scan,
    that is [t1 ++ delim ++ ... ++ tk ++ delim] with every piece closed by
    the delimiter after it, is split into the pieces [t1; ...; tk] and
    nothing more: no element is emitted after the last match. *)
Theorem split_trailing_delimiter (delim : string) (ts : list string) :
  delim <> "" -> ts <> [] -> Forall (closed_by delim) ts ->
  split (segments delim ts) delim = Returned ts.
Proof.
  intros Hne Hts Hc.
  pose proof (SplitResult.split_segments delim ts "" Hne Hc
                (SplitResult.contains_empty delim Hne)) as H.
  rewrite StringFacts.append_empty_r in H. rewrite H.
  destruct ts as [|t ts]; [congruence|].
  cbn [last_tokens remainder]. now rewrite app_nil_r.
Qed.

Lemma split_trailing_delimiter_witness :
  "," <> "" /\ ["a"] <> [] /\ Forall (closed_by ",") ["a"] /\
  split "a," "," = Returned ["a"].
Proof.
  assert (H1 : "," <> "") by discriminate.
  assert (H2 : ["a"] <> []) by discriminate.
  assert (H3 : Forall (closed_by ",") ["a"]) by (repeat constructor).
  split; [exact H1 | split; [exact H2 | split; [exact H3|]]].
  exact (split_trailing_delimiter "," ["a"] H1 H2 H3).
Defined.

(** C3, as the specification states it, fails for the delimiter of length
    0: on a non-empty string the loop finds the empty match at position 0
    again and again and never returns. *)
Lemma split_empty_delimiter_diverges :
  ~ exists fuel r, split_fuel fuel "a" "" = Returned r.
Proof.
  intros (fuel & r & H).
  rewrite SplitTermination.split_diverges in H; discriminate.
Qed.

(** C3, amended: for every string, the empty one included, and every
    non-empty delimiter, [split] returns a sequence: its loop ends within
    [length str + 1] iterations and [substr] is never called out of
    range. *)
Theorem split_never_fails (str delim : string) :
  delim <> "" ->
  exists r, split str delim = Returned r /\
            forall fuel, length str < fuel ->
                         split_fuel fuel str delim = Returned r.
Proof.
  intros Hne.
  destruct (SplitTermination.split_total str delim (or_introl Hne)) as [r Hr].
  exists r. split; [exact Hr|].
  intros fuel Hf.
  apply (SplitFacts.split_loop_fuel_mono (S (length str))); [exact Hr | lia].
Qed.

Lemma split_never_fails_witness :
  "," <> "" /\
  exists r, split "a,b" "," = Returned r /\
            forall fuel, 3 < fuel -> split_fuel fuel "a,b" "," = Returned r.
Proof.
  assert (H : "," <> "") by discriminate.
  split; [exact H | exact (split_never_fails "a,b" "," H)].
Defined.

(** C5: when the scan has matched a delimiter (the one closing the last
    piece of [xs]) and the next delimiter follows at once, an empty string
    is emitted between the two, whatever pieces [ys] and rest [t] follow.
    E.g. [split "a,,b" ","] is [["a"; ""; "b"]]. *)
Theorem split_consecutive_delimiters
        (delim : string) (xs ys : list string) (t : string) :
  delim <> "" -> xs <> [] ->
  Forall (closed_by delim) xs -> Forall (closed_by delim) ys ->
  contains t delim = false ->
  split (segments delim xs ++ delim ++ segments delim ys ++ t) delim =
  Returned (xs ++ "" :: ys ++ remainder t)%list.
Proof.
  intros Hne _ Hxs Hys Ht.
  assert (Hall : Forall (closed_by delim) (xs ++ "" :: ys)%list).
  { apply Forall_app. split; [exact Hxs|].
    constructor; [now apply SplitResult.closed_by_empty | exact Hys]. }
  pose proof (SplitResult.split_segments delim _ t Hne Hall Ht) as H.
  rewrite SplitResult.segments_app in H. cbn [segments append] in H.
  rewrite !StringFacts.append_assoc in H. rewrite H. f_equal.
  rewrite <- app_assoc. cbn [List.app]. do 2 f_equal.
  destruct xs; reflexivity.
Qed.

Lemma split_consecutive_delimiters_witness :
  split "a,,b" "," = Returned ["a"; ""; "b"].
Proof.
  apply (split_consecutive_delimiters "," ["a"] [] "b").
  - discriminate.
  - discriminate.
  - repeat constructor.
  - constructor.
  - reflexivity.
Defined.

(** C6: a string in which the (non-empty) delimiter does not occur is
    returned as the only element; so is the empty string. *)
Theorem split_no_occurrence (str delim : string) :
  delim <> "" ->
  (contains str delim = false -> split str delim = Returned [str]) /\
  split "" delim = Returned [""].
Proof.
  intros Hne.
  assert (H : forall s, contains s delim = false ->
                        split s delim = Returned [s]).
  { intros s Hs.
    exact (SplitResult.split_segments delim [] s Hne (Forall_nil _) Hs). }
  split; [apply H | apply H, SplitResult.contains_empty, Hne].
Qed.

Lemma split_no_occurrence_witness :
  split "abc" "," = Returned ["abc"] /\ split "" "," = Returned [""].
Proof.
  assert (H : "," <> "") by discriminate.
  destruct (split_no_occurrence "abc" "," H) as [H1 H2].
  split; [apply H1; reflexivity | exact H2].
Defined.

(** C8: whenever [split] returns, it returns at least one element. *)
Theorem split_result_nonempty (str delim : string) (r : list string) :
  (exists fuel, split_fuel fuel str delim = Returned r) -> r <> [].
Proof.
  intros [fuel H] ->.
  apply SplitTokens.split_loop_grows in H. simpl in H. lia.
Qed.

Lemma split_result_nonempty_witness :
  split_fuel 2 "a,b" "," = Returned ["a"; "b"] /\ ["a"; "b"] <> [].
Proof.
  assert (H : split_fuel 2 "a,b" "," = Returned ["a"; "b"]) by reflexivity.
  split; [exact H|].
  exact (split_result_nonempty "a,b" "," ["a"; "b"] (ex_intro _ 2 H)).
Defined.

(** C9: for a non-empty delimiter, [split] returns tokens none of which
    contains the delimiter. *)
Theorem split_tokens_delim_free (str delim : string) :
  delim <> "" ->
  exists r, split str delim = Returned r /\
            Forall (fun t => contains t delim = false) r /\
            forall t j, In t r -> ~ occurs_at delim t j.
Proof.
  intros Hne.
  destruct (SplitTermination.split_total str delim (or_introl Hne)) as [r Hr].
  assert (Hfree : Forall (fun t => contains t delim = false) r).
  { exact (SplitTokens.split_loop_delim_free _ _ _ _ _ _ Hne
             (Forall_nil _) Hr). }
  exists r. split; [exact Hr | split; [exact Hfree|]].
  intros t j Hin. rewrite Forall_forall in Hfree.
  apply (FindFacts.contains_false_iff t delim Hne). now apply Hfree.
Qed.

Lemma split_tokens_delim_free_witness :
  exists r, split "a,,b" "," = Returned r /\
            Forall (fun t => contains t "," = false) r /\
            forall t j, In t r -> ~ occurs_at "," t j.
Proof.
  apply (split_tokens_delim_free "a,,b" ","). discriminate.
Defined.

(** ** MapAccessor *)

(** C4: [keys] and [values] have as many elements as the map has entries,
    and at each index below that number they hold the key and the value of
    the entry at that index in iteration order. *)
Theorem keys_values_entries {K V : Type} {comp : K -> K -> bool}
        (m : std_map K V comp) :
  List.length (keys m) = size comp m /\
  List.length (values m) = size comp m /\
  forall i, i < size comp m ->
    exists k v, nth_error (entries comp m) i = Some (k, v) /\
                nth_error (keys m) i = Some k /\
                nth_error (values m) i = Some v.
Proof.
  rewrite MapFacts.keys_entries, MapFacts.values_entries.
  unfold size. rewrite !length_map.
  split; [reflexivity | split; [reflexivity|]].
  intros i Hi. rewrite !nth_error_map.
  destruct (nth_error (entries comp m) i) as [[k v]|] eqn:E.
  - exists k, v. repeat split.
  - apply nth_error_None in E. lia.
Qed.

Lemma keys_values_entries_witness :
  1 < size Nat.ltb Samples.numbered /\
  exists k v, nth_error (entries Nat.ltb Samples.numbered) 1 = Some (k, v) /\
              nth_error (keys Samples.numbered) 1 = Some k /\
              nth_error (values Samples.numbered) 1 = Some v.
Proof.
  assert (H : 1 < size Nat.ltb Samples.numbered) by (vm_compute; lia).
  split; [exact H|].
  exact (proj2 (proj2 (keys_values_entries Samples.numbered)) 1 H).
Defined.

(** C10: the keys come out in strictly increasing order of the map's
    comparison, hence without repetition. *)
Theorem keys_strictly_increasing {K V : Type} {comp : K -> K -> bool}
        (comp_order : StrictOrderB comp) (m : std_map K V comp) :
  StronglySorted (key_lt comp) (keys m) /\ NoDup (keys m).
Proof.
  assert (H : StronglySorted (key_lt comp) (keys m)).
  { rewrite MapFacts.keys_entries. exact (entries_ordered comp m). }
  split; [exact H | exact (MapFacts.sorted_NoDup _ H)].
Qed.

Lemma keys_strictly_increasing_witness :
  keys Samples.numbered = [1; 2; 3] /\
  StronglySorted (key_lt Nat.ltb) (keys Samples.numbered) /\
  NoDup (keys Samples.numbered).
Proof.
  split; [reflexivity|].
  exact (keys_strictly_increasing nat_ltb_order Samples.numbered).
Defined.

(** ** TextFileReader *)

(** C2, as the specification states it, fails: for a path that cannot be
    opened [readText] returns, and what it returns is the empty string, as
    for an empty file. *)
Lemma readText_missing_file_returns_empty :
  Samples.disk "missing.txt" = None /\
  Samples.disk "empty.txt" = Some "" /\
  readText Samples.disk "missing.txt" = Returned "" /\
  readText Samples.disk "missing.txt" = readText Samples.disk "empty.txt".
Proof. repeat split. Qed.

(** C2, amended: for a path that cannot be opened [readText] signals
    nothing; it returns the empty string, which is also its result for
    every empty file. *)
Theorem readText_unopenable (fs : filesystem) (path : string) :
  fs path = None ->
  readText fs path = Returned "" /\
  forall fs' path', fs' path' = Some "" ->
                    readText fs' path' = readText fs path.
Proof.
  intros H. unfold readText, ifstream_open. rewrite H.
  split; [reflexivity|].
  intros fs' path' H'. now rewrite H'.
Qed.

Lemma readText_unopenable_witness :
  Samples.disk "missing.txt" = None /\
  readText Samples.disk "missing.txt" = Returned "".
Proof.
  assert (H : Samples.disk "missing.txt" = None) by reflexivity.
  split; [exact H|].
  exact (proj1 (readText_unopenable Samples.disk "missing.txt" H)).
Defined.

(** C7: for a file that can be opened [readText] returns its contents,
    character for character. *)
Theorem readText_contents (fs : filesystem) (path contents : string) :
  fs path = Some contents -> readText fs path = Returned contents.
Proof.
  intros H. unfold readText, ifstream_open. rewrite H. cbn [pending].
  now rewrite FileFacts.read_all_spec.
Qed.

Lemma readText_contents_witness :
  readText Samples.disk "hello.txt" =
  Returned ("hello" ++ String "010" "world").
Proof.
  apply readText_contents. reflexivity.
Defined.

(** * Further properties of [split], [keys] and [values] *)

(** ** Joining tokens *)

Module SplitJoin.
Import StdString OneStringHelper StringFacts FindFacts SplitResult.

(** [concat delim] writes the delimiter between the tokens, [segments]
    after each of them. *)
Lemma concat_segments (delim : string) (ts : list string) (t : string) :
  concat delim (ts ++ [t]) = segments delim ts ++ t.
Proof.
  induction ts as [|x ts IH]; [reflexivity|].
  cbn [List.app segments]. rewrite !append_assoc, <- IH.
  destruct (ts ++ [t])%list eqn:E; [|reflexivity].
  destruct ts; discriminate E.
Qed.

Lemma concat_then_delim (delim : string) (ts : list string) :
  ts <> [] -> concat delim ts ++ delim = segments delim ts.
Proof.
  intros Hne. destruct (exists_last Hne) as (init & l & ->).
  rewrite concat_segments, segments_app. cbn [segments].
  now rewrite append_empty_r, append_assoc.
Qed.

Lemma length_concat (delim : string) (r : list string) :
  length (concat delim r) =
  list_sum (List.map length r) + (List.length r - 1) * length delim.
Proof.
  induction r as [|x r IH]; [reflexivity|].
  destruct r as [|y r].
  - simpl. lia.
  - change (concat delim (x :: y :: r))
      with (x ++ delim ++ concat delim (y :: r)).
    rewrite !length_append, IH.
    cbn [List.map list_sum fold_right List.length Nat.sub].
    rewrite Nat.sub_0_r. nia.
Qed.

(** A piece closed by the delimiter does not contain it. *)
Lemma closed_by_free (delim t : string) :
  delim <> "" -> closed_by delim t -> contains t delim = false.
Proof.
  intros Hne Hc. apply contains_false_iff; [exact Hne|].
  intros j Hocc. pose proof (occurs_bound _ _ _ Hocc Hne) as Hb.
  pose proof (length_nonempty _ Hne) as Hd.
  apply (index_correct2 _ _ _ _ Hc j); [lia | lia |].
  rewrite substring_inside by lia. exact Hocc.
Qed.

(** For a delimiter of one character the converse holds: no occurrence of
    it can overlap the copy written after the piece. *)
Lemma free_closed_by_char (c : ascii) (t : string) :
  contains t (String c "") = false -> closed_by (String c "") t.
Proof.
  intros Hf. assert (Hne : String c "" <> "") by discriminate.
  apply find_first; [exact Hne | lia | |].
  - rewrite <- (Nat.add_0_r (length t)). apply occurs_skip. reflexivity.
  - intros p _ Hp Hocc.
    apply (proj1 (contains_false_iff t _ Hne) Hf p).
    unfold occurs_at in *. cbn [length] in *.
    rewrite substring_inside in Hocc by lia. exact Hocc.
Qed.

(** The result of [split] in terms of the pieces of a string. *)
Lemma split_pieces (str delim : string) (r : list string) :
  delim <> "" -> split str delim = Returned r ->
  exists ts t, str = segments delim ts ++ t /\
               Forall (closed_by delim) ts /\ contains t delim = false /\
               r = (ts ++ last_tokens ts t)%list.
Proof.
  intros Hne Hr.
  destruct (split_canonical str delim Hne) as (ts & t & Hs & Hts & Ht & H).
  exists ts, t. repeat (split; [assumption|]). congruence.
Qed.

(** The tokens, joined, are the string or the string less its last
    delimiter. *)
Lemma pieces_joined (str delim : string) (r : list string) :
  delim <> "" -> split str delim = Returned r ->
  str = concat delim r \/ str = concat delim r ++ delim.
Proof.
  intros Hne Hr.
  destruct (split_pieces str delim r Hne Hr) as (ts & t & -> & _ & _ & ->).
  destruct ts as [|x ts].
  - left. reflexivity.
  - cbn [last_tokens]. destruct t as [|c t]; cbn [remainder].
    + right. rewrite app_nil_r, append_empty_r.
      symmetry. apply concat_then_delim. discriminate.
    + left. symmetry. apply concat_segments.
Qed.

End SplitJoin.

(** ** Round trips and composition of [split] *)

(** X1: for a non-empty delimiter, writing the delimiter between the tokens
    that [split] returns gives the string back, up to one delimiter at its
    very end, which the scan drops. *)
Theorem split_join_back (str delim : string) (r : list string) :
  delim <> "" -> split str delim = Returned r ->
  str = concat delim r \/ str = concat delim r ++ delim.
Proof. apply SplitJoin.pieces_joined. Qed.

Lemma split_join_back_witness :
  "a,b," = concat "," ["a"; "b"] \/ "a,b," = concat "," ["a"; "b"] ++ ",".
Proof.
  apply (split_join_back "a,b," "," ["a"; "b"]); [discriminate | reflexivity].
Defined.

(** X2: [split] works piece by piece: when the first match of the
    delimiter closes the piece [t] and characters follow it, the result is
    [t] followed by the result for those characters.  With [t] empty: a
    delimiter at the start of the string gives an empty first token. *)
Theorem split_first_piece (t delim rest : string) :
  delim <> "" -> closed_by delim t -> rest <> "" ->
  split (t ++ delim ++ rest) delim = outcome_map (cons t) (split rest delim).
Proof.
  intros Hne Hc Hrest.
  destruct (SplitResult.split_canonical rest delim Hne)
    as (ts & u & Hs & Hts & Hu & Hsplit).
  rewrite Hsplit. cbn [outcome_map].
  pose proof (SplitResult.split_segments delim (t :: ts) u Hne
                (Forall_cons _ Hc Hts) Hu) as H.
  cbn [segments] in H. rewrite !StringFacts.append_assoc, <- Hs in H.
  rewrite H. cbn [List.app]. do 3 f_equal.
  destruct ts as [|y ts]; [|reflexivity].
  cbn [segments append] in Hs. subst u.
  destruct rest; [congruence | reflexivity].
Qed.

Lemma split_first_piece_witness :
  split ",a,b" "," = outcome_map (cons "") (split "a,b" ",") /\
  split ",a,b" "," = Returned [""; "a"; "b"].
Proof.
  split; [|reflexivity].
  apply (split_first_piece "" "," "a,b"); [discriminate | reflexivity | discriminate].
Defined.

(** X3: the tokens and the delimiters between them fit into the string:
    the lengths of the tokens plus one delimiter length per gap do not
    exceed the length of [str], so there are at most [length str + 1]
    tokens. *)
Theorem split_lengths (str delim : string) (r : list string) :
  delim <> "" -> split str delim = Returned r ->
  list_sum (List.map length r) + (List.length r - 1) * length delim
  <= length str /\
  List.length r <= S (length str).
Proof.
  intros Hne Hr.
  pose proof (StringFacts.length_nonempty _ Hne) as Hd.
  assert (H : length (concat delim r) <= length str).
  { destruct (SplitJoin.pieces_joined str delim r Hne Hr) as [-> | ->];
      [|rewrite StringFacts.length_append]; lia. }
  rewrite SplitJoin.length_concat in H. split; [exact H | nia].
Qed.

Lemma split_lengths_witness :
  list_sum (List.map length ["a"; ""; "bc"]) + (3 - 1) * length "," <= 5 /\
  3 <= S 5.
Proof.
  apply (split_lengths "a,,bc" "," ["a"; ""; "bc"]);
    [discriminate | reflexivity].
Defined.

(** X6: a token that [split] returns is not split any further: splitting
    it with the same delimiter returns the token alone. *)
Theorem split_tokens_fixed (str delim : string) (r : list string) :
  delim <> "" -> split str delim = Returned r ->
  Forall (fun t => split t delim = Returned [t]) r.
Proof.
  intros Hne Hr.
  pose proof (SplitTokens.split_loop_delim_free _ _ _ _ _ _ Hne
                (Forall_nil _) Hr) as Hfree.
  eapply Forall_impl; [|exact Hfree].
  intros t Ht.
  exact (SplitResult.split_segments delim [] t Hne (Forall_nil _) Ht).
Qed.

Lemma split_tokens_fixed_witness :
  Forall (fun t => split t "ab" = Returned [t]) ["x"; "a"; "b"].
Proof.
  apply (split_tokens_fixed "xabaabb" "ab"); [discriminate | reflexivity].
Defined.

(** X9: a delimiter at the end of the string cannot be seen in the result:
    when the characters [t] after the last matched delimiter are not empty
    and are themselves closed by a delimiter written after them, [split]
    returns the same tokens with and without that last delimiter. *)
Theorem split_trailing_delimiter_unobservable
        (delim : string) (ts : list string) (t : string) :
  delim <> "" -> Forall (closed_by delim) ts -> closed_by delim t ->
  t <> "" ->
  split (segments delim ts ++ t ++ delim) delim = Returned (ts ++ [t])%list /\
  split (segments delim ts ++ t) delim = Returned (ts ++ [t])%list.
Proof.
  intros Hne Hts Ht Hnt. split.
  - assert (Hall : Forall (closed_by delim) (ts ++ [t])%list)
      by (apply Forall_app; split; [exact Hts | now constructor]).
    pose proof (SplitResult.split_segments delim _ "" Hne Hall
                  (SplitResult.contains_empty delim Hne)) as H.
    rewrite SplitResult.segments_app in H. cbn [segments] in H.
    rewrite !StringFacts.append_empty_r in H. rewrite H. f_equal.
    destruct ts; cbn [List.app last_tokens remainder];
      now rewrite ?app_nil_r.
  - rewrite (SplitResult.split_segments delim ts t Hne Hts
               (SplitJoin.closed_by_free delim t Hne Ht)).
    do 2 f_equal. destruct ts; destruct t; cbn; congruence.
Qed.

Lemma split_trailing_delimiter_unobservable_witness :
  split "a,b," "," = Returned ["a"; "b"] /\
  split "a,b" "," = Returned ["a"; "b"].
Proof.
  apply (split_trailing_delimiter_unobservable "," ["a"] "b");
    [discriminate | repeat constructor | reflexivity | discriminate].
Defined.

(** X7: splitting undoes joining for a delimiter of one character: tokens
    without that character, joined with it, are returned as they were,
    provided the last of several tokens is not empty. *)
Theorem split_concat_char (c : ascii) (ts : list string) :
  ts <> [] ->
  Forall (fun t => contains t (String c "") = false) ts ->
  List.length ts = 1 \/ last ts "" <> "" ->
  split (concat (String c "") ts) (String c "") = Returned ts.
Proof.
  intros Hne Hfree Hlast.
  destruct (exists_last Hne) as (init & l & ->).
  apply Forall_app in Hfree. destruct Hfree as [Hinit Hl].
  inversion Hl as [|? ? Hl' _]; subst.
  rewrite SplitJoin.concat_segments.
  rewrite SplitResult.split_segments;
    [| discriminate
     | eapply Forall_impl; [|exact Hinit];
       intros t; apply SplitJoin.free_closed_by_char
     | exact Hl'].
  do 2 f_equal. destruct init as [|x init]; [reflexivity|].
  cbn [last_tokens]. destruct l; [|reflexivity].
  exfalso. destruct Hlast as [Hlen | Hlast].
  - rewrite length_app in Hlen. simpl in Hlen. lia.
  - apply Hlast. apply last_last.
Qed.

Lemma split_concat_char_witness :
  split (concat "," [""; "a"; ""; "bc"]) "," = Returned [""; "a"; ""; "bc"].
Proof.
  apply (split_concat_char ","%char [""; "a"; ""; "bc"]).
  - discriminate.
  - repeat constructor.
  - right. discriminate.
Defined.

(** ** What [split] never does, and when it returns *)


(** X5: [split] returns exactly when the delimiter is not empty or the
    string is empty; with the empty delimiter and a non-empty string its
    loop does not end. *)
Theorem split_returns_iff (str delim : string) :
  (exists fuel r, split_fuel fuel str delim = Returned r) <->
  (delim <> "" \/ str = "").
Proof.
  split.
  - intros (fuel & r & H).
    destruct delim as [|c d]; [|left; discriminate].
    destruct str as [|c s]; [right; reflexivity|].
    unfold split_fuel in H.
    rewrite SplitFacts.split_loop_empty_delim in H; discriminate.
  - intros H. destruct (SplitTermination.split_total str delim H) as [r Hr].
    exists (S (length str)), r. exact Hr.
Qed.

Lemma split_returns_iff_witness :
  exists fuel r, split_fuel fuel "a,b" "," = Returned r.
Proof.
  apply (proj2 (split_returns_iff "a,b" ",")). left. discriminate.
Defined.

(** ** [keys] and [values] together *)

(** X8: pairing the keys with the values, position by position, gives the
    entries of the map back in iteration order. *)
Theorem keys_values_combine {K V : Type} {comp : K -> K -> bool}
        (m : std_map K V comp) :
  combine (keys m) (values m) = entries comp m.
Proof.
  rewrite MapFacts.keys_entries, MapFacts.values_entries.
  induction (entries comp m) as [|[k v] l IH]; simpl; [reflexivity|].
  now rewrite IH.
Qed.
